(** * ttlcache: a key/value cache whose entries carry a time to live

    A shallow embedding of [cache.go] (package [ttlcache]) and the
    properties its specification states about it.

    - [sync.Map] is a finite map with unique string keys: [gmap string Item].
      The operations of one goroutine are atomic steps on it; the
      background sweep is a second participant of an interleaving
      transition system (module [Sched]).
    - [time.Now()] is an input of every operation that reads the clock.
    - [time.Duration] is an [int64] count of nanoseconds; the cache only
      compares durations with 0 and hands them to [Time.Add], so they
      are kept as [Z].
    - [interface{}] is [option V] for an arbitrary payload type [V];
      [None] is Go's [nil]. *)

From stdpp Require Import gmap strings list fin_maps.
From Stdlib Require Import ZArith Lia.

Open Scope Z_scope.

(** ** The part of Go's [time] package the cache uses

    [time.Time] holds a wall-clock reading and, when it was produced by
    [time.Now()], a monotonic-clock reading as well.  The wall clock is
    counted in nanoseconds from the zero [Time] (January 1, year 1,
    00:00:00 UTC), so the zero value [time.Time{}] is [wall = 0] with no
    monotonic reading.  [After] compares the monotonic readings when both
    operands have one and the wall clocks otherwise.  [Add] moves both
    readings (the saturation of [Add] at the ends of the representable
    range is outside what the cache relies on and is not modelled). *)
Module time.

Definition Duration : Type := Z.

Record Time : Type := mkTime { wall : Z; mono : option Z }.

Definition zero : Time := mkTime 0 None.

Definition After (t u : Time) : bool :=
  match mono t, mono u with
  | Some a, Some b => b <? a
  | _, _ => wall u <? wall t
  end.

Definition Add (t : Time) (d : Duration) : Time :=
  mkTime (wall t + d) ((fun m => m + d) <$> mono t).

(** Nanoseconds between the zero [Time] and the Unix epoch. *)
Definition unixEpoch : Z := 62135596800 * 1000000000.

(** A reading of [time.Now()] taken [ns] nanoseconds after the Unix
    epoch, with monotonic reading [m]. *)
Definition reading (ns m : Z) : Time := mkTime (unixEpoch + ns) (Some m).

(** [time.NewTicker(d)] panics when [d] is not positive; otherwise it
    yields a ticker of period [d].  [None] is the panic. *)
Record Ticker : Type := mkTicker { period : Duration; active : bool }.

Definition NewTicker (d : Duration) : option Ticker :=
  if d <=? 0 then None else Some (mkTicker d true).

Definition Stop (t : Ticker) : Ticker := mkTicker (period t) false.

End time.

(** ** Constants *)

Definition NoExpiration : time.Duration := -1.
Definition DefaultExpiration : time.Duration := 0.

(** A Go channel value: the zero value [nil], or a channel made by [make]. *)
Inductive chan : Type :=
  | nilChan
  | madeChan (id : nat).

Section Cache.

(** The payload type behind [interface{}]. *)
Context {V : Type}.

(** ** Item *)

Record Item : Type := mkItem {
  Persistent : bool;
  Object : option V;
  Expiration : time.Time
}.

(** [item.Expired()], with the reading of [time.Now()] it takes. *)
Definition Expired (item : Item) (now : time.Time) : bool :=
  if Persistent item then false
  else time.After now (Expiration item).

(** ** Cache *)

Record Cache : Type := mkCache {
  defaultExpiration : time.Duration;
  Map : gmap string Item;
  stop : chan
}.

Definition withMap (c : Cache) (m : gmap string Item) : Cache :=
  mkCache (defaultExpiration c) m (stop c).

(** The duration [Store] works with once [DefaultExpiration] has been
    replaced by the cache's default (the first [if] of [Store]). *)
Definition resolve (c : Cache) (d : time.Duration) : time.Duration :=
  if d =? DefaultExpiration then defaultExpiration c else d.

(** [c.Store(k, x, d, persitent)]; [now] is read only when the resolved
    duration is positive. *)
Definition Store (c : Cache) (k : string) (x : option V)
    (d : time.Duration) (persitent : bool) (now : time.Time) : Cache :=
  let e := time.zero in
  let d := if d =? DefaultExpiration then defaultExpiration c else d in
  let e := if 0 <? d then time.Add now d else e in
  withMap c (<[k := mkItem persitent x e]> (Map c)).

(** [c.Load(k)]: the returned pair and the cache afterwards. *)
Definition Load (c : Cache) (k : string) (now : time.Time)
    : (option V * bool) * Cache :=
  match Map c !! k with
  | None => ((None, false), c)
  | Some item =>
      if negb (Persistent item) && time.After now (Expiration item)
      then ((None, false), withMap c (delete k (Map c)))
      else ((Object item, true), c)
  end.

(** [c.Delete(k)]. *)
Definition Delete (c : Cache) (k : string) : Cache :=
  withMap c (delete k (Map c)).

(** [sync.Map.Range]: the visitor is called on the entries one after the
    other, threading the state [St] it works on, until it returns
    [false].  [rangeOver] walks the entries in a given order; the order
    in which a map presents them is not specified, and [map_to_list]
    stands for it. *)
Fixpoint rangeOver {St : Type} (f : string → Item → St → bool * St)
    (l : list (string * Item)) (s : St) : St :=
  match l with
  | [] => s
  | (k, v) :: l' =>
      let '(continue, s') := f k v s in
      if continue then rangeOver f l' s' else s'
  end.

Definition syncRange {St : Type} (m : gmap string Item)
    (f : string → Item → St → bool * St) (s : St) : St :=
  rangeOver f (map_to_list m) s.

(** [c.Range(f)]. *)
Definition Range {St : Type} (c : Cache)
    (f : string → Item → St → bool * St) (s : St) : St :=
  syncRange (Map c) f s.

(** A visitor that behaves as [f] and, next to the state of [f], keeps a
    record of every call made to it: the key, the entry and the answer
    [f] gave. *)
Definition logged {St : Type} (f : string → Item → St → bool * St)
    (k : string) (item : Item) (s : list (string * Item * bool) * St)
    : bool * (list (string * Item * bool) * St) :=
  let '(continue, s') := f k item (snd s) in
  (continue, (fst s ++ [(k, item, continue)], s')).

(** The visitor of [DeleteExpired].  Its state is the cache it deletes
    from; [clock k] is the reading of [time.Now()] that [Expired] takes
    when the entry of [k] is visited. *)
Definition sweepVisitor (clock : string → time.Time)
    (k : string) (item : Item) (c : Cache) : bool * Cache :=
  (true, if Expired item (clock k) then Delete c k else c).

(** [c.DeleteExpired()]. *)
Definition DeleteExpired (c : Cache) (clock : string → time.Time) : Cache :=
  syncRange (Map c) (sweepVisitor clock) c.

(** [newCache(de, m)]: [stop] is left at its zero value. *)
Definition newCache (de : time.Duration) (m : gmap string Item) : Cache :=
  let de := if de =? 0 then -1 else de in
  mkCache de m nilChan.

End Cache.

Arguments Item : clear implicits.
Arguments Cache : clear implicits.

(** ** Construction and the background sweep

    [New] starts the goroutine [c.gc(ci)] and registers [stopGC] as the
    finalizer of [c] when the default expiration it was given is
    positive.  The goroutine, the finalizer and the callers of the cache
    run interleaved; [step] is one atomic action of one of them, and
    [None] says that the action cannot take place in that state. *)
Module Sched.

(** Where the goroutine running [c.gc(ci)] stands. *)
Inductive gcState : Type :=
  | gcAbsent                          (* [go c.gc(ci)] was never issued *)
  | gcSpawned (ci : time.Duration)    (* issued, [NewTicker] not yet called *)
  | gcSelect (ticker : time.Ticker)   (* waiting in the [select] *)
  | gcPanicked                        (* [NewTicker] panicked *)
  | gcReturned (ticker : time.Ticker) (* [ticker.Stop()] done, returned *).

(** Where the finalizer [stopGC] stands. *)
Inductive finState : Type :=
  | finAbsent    (* [SetFinalizer] was never called *)
  | finSet       (* registered, not yet run *)
  | finSending   (* running, at [c.stop <- true] *)
  | finReturned  (* the send went through *).

Section World.

Context {V : Type}.

Record World : Type := mkWorld {
  cache : Cache V;
  janitor : gcState;
  finalizer : finState
}.

(** [New(defaultExpiration, cleanupInterval)]. *)
Definition New (defaultExpiration cleanupInterval : time.Duration) : World :=
  let items : gmap string (Item V) := ∅ in
  let c := newCache defaultExpiration items in
  if 0 <? defaultExpiration
  then mkWorld c (gcSpawned cleanupInterval) finSet
  else mkWorld c gcAbsent finAbsent.

(** The first action of [c.gc(ci)]: [ticker := time.NewTicker(ci)]. *)
Definition gcBegin (ci : time.Duration) : gcState :=
  match time.NewTicker ci with
  | Some ticker => gcSelect ticker
  | None => gcPanicked
  end.

(** Whether a send and a receive on [ch] can meet.  Both block for
    ever on the [nil] channel. *)
Definition canRendezvous (ch : chan) : bool :=
  match ch with
  | nilChan => false
  | madeChan _ => true
  end.

Inductive Event : Type :=
  | evBegin                              (* the goroutine starts running *)
  | evTick (clock : string → time.Time)  (* [case <-ticker.C] *)
  | evFinalize                           (* the runtime calls [stopGC(c)] *)
  | evStop                               (* [c.stop <- true] meets [case <-c.stop] *)
  | evStore (k : string) (x : option V) (d : time.Duration)
            (persitent : bool) (now : time.Time)
  | evLoad (k : string) (now : time.Time)
  | evDelete (k : string)
  | evDeleteExpired (clock : string → time.Time).

Definition withCache (w : World) (c : Cache V) : World :=
  mkWorld c (janitor w) (finalizer w).

(** A panic in any goroutine ends the program: nothing steps after it. *)
Definition step (w : World) (e : Event) : option World :=
  match janitor w with
  | gcPanicked => None
  | _ =>
    match e with
    | evBegin =>
        match janitor w with
        | gcSpawned ci => Some (mkWorld (cache w) (gcBegin ci) (finalizer w))
        | _ => None
        end
    | evTick clock =>
        match janitor w with
        | gcSelect _ => Some (withCache w (DeleteExpired (cache w) clock))
        | _ => None
        end
    | evFinalize =>
        match finalizer w with
        | finSet => Some (mkWorld (cache w) (janitor w) finSending)
        | _ => None
        end
    | evStop =>
        match janitor w, finalizer w with
        | gcSelect ticker, finSending =>
            if canRendezvous (stop (cache w))
            then Some (mkWorld (cache w) (gcReturned (time.Stop ticker)) finReturned)
            else None
        | _, _ => None
        end
    | evStore k x d persitent now =>
        Some (withCache w (Store (cache w) k x d persitent now))
    | evLoad k now => Some (withCache w (snd (Load (cache w) k now)))
    | evDelete k => Some (withCache w (Delete (cache w) k))
    | evDeleteExpired clock =>
        Some (withCache w (DeleteExpired (cache w) clock))
    end
  end.

Fixpoint run (w : World) (evs : list Event) : option World :=
  match evs with
  | [] => Some w
  | e :: evs' =>
      match step w e with
      | Some w' => run w' evs'
      | None => None
      end
  end.

(** The states in which the stop channel is [nil] and neither the sweep
    task has returned nor the send of [stopGC] has completed. *)
Definition neverStopped (w : World) : Prop :=
  stop (cache w) = nilChan ∧
  (∀ t, janitor w ≠ gcReturned t) ∧
  finalizer w ≠ finReturned.

(** The states a sweep task started with the interval [ci] is in before
    its ticker exists. *)
Definition tickerless (ci : time.Duration) (w : World) : Prop :=
  janitor w = gcSpawned ci ∨ janitor w = gcPanicked.

End World.

Arguments World : clear implicits.
Arguments Event : clear implicits.

End Sched.


(** * Properties *)

(** ** Time *)

Lemma After_zero (now : time.Time) :
  time.After now time.zero = (0 <? time.wall now).
Proof. unfold time.After. simpl. by destruct (time.mono now). Qed.

Section CacheFacts.

Context {V : Type}.
Implicit Types (c : Cache V) (item : Item V) (k : string) (x : option V).
Implicit Types (d : time.Duration) (now : time.Time).

(** ** Entries *)

Lemma Expired_persistent item now :
  Persistent item = true → Expired item now = false.
Proof. unfold Expired. by intros ->. Qed.

Lemma Expired_deadline item now :
  Persistent item = false →
  Expired item now = time.After now (Expiration item).
Proof. unfold Expired. by intros ->. Qed.

Lemma Expired_iff item now :
  Expired item now = true ↔
  Persistent item = false ∧ time.After now (Expiration item) = true.
Proof.
  unfold Expired. destruct (Persistent item); intuition congruence.
Qed.

(** ** Store *)

Lemma Store_resolve c k x d persitent now :
  Store c k x d persitent now =
  withMap c (<[k := mkItem persitent x
                     (if 0 <? resolve c d
                      then time.Add now (resolve c d) else time.zero)]>
               (Map c)).
Proof. reflexivity. Qed.

Lemma Store_lookup c k x d persitent now :
  Map (Store c k x d persitent now) !! k =
  Some (mkItem persitent x
          (if 0 <? resolve c d then time.Add now (resolve c d) else time.zero)).
Proof. rewrite Store_resolve. simpl. apply lookup_insert_eq. Qed.

Lemma Store_lookup_ne c k k' x d persitent now :
  k ≠ k' → Map (Store c k x d persitent now) !! k' = Map c !! k'.
Proof. intros Hne. rewrite Store_resolve. simpl. by apply lookup_insert_ne. Qed.

Lemma Store_fields c k x d persitent now :
  defaultExpiration (Store c k x d persitent now) = defaultExpiration c ∧
  stop (Store c k x d persitent now) = stop c.
Proof. done. Qed.

Lemma Store_nonpositive_item c k x d persitent now :
  resolve c d ≤ 0 →
  Map (Store c k x d persitent now) !! k = Some (mkItem persitent x time.zero).
Proof.
  intros Hd. rewrite Store_lookup.
  destruct (Z.ltb_spec 0 (resolve c d)); [lia | done].
Qed.

(** ** Load *)

Lemma Load_fields c k now :
  defaultExpiration (snd (Load c k now)) = defaultExpiration c ∧
  stop (snd (Load c k now)) = stop c.
Proof.
  unfold Load. destruct (Map c !! k) as [item|]; [|done].
  by destruct (negb (Persistent item) && time.After now (Expiration item)).
Qed.

Lemma Load_expired c k item now :
  Map c !! k = Some item → Expired item now = true →
  Load c k now = ((None, false), withMap c (delete k (Map c))).
Proof.
  intros Hk [Hp Ha]%Expired_iff. unfold Load. by rewrite Hk, Hp, Ha.
Qed.

Lemma Load_live c k item now :
  Map c !! k = Some item → Expired item now = false →
  Load c k now = ((Object item, true), c).
Proof.
  intros Hk He. unfold Load. rewrite Hk.
  unfold Expired in He. destruct (Persistent item); simpl; [done|].
  by rewrite He.
Qed.

End CacheFacts.

(** ** Entries stored without a deadline *)

Section NoDeadline.

Context {V : Type}.
Implicit Types (c : Cache V) (item : Item V) (k : string) (x : option V).
Implicit Types (d : time.Duration) (now : time.Time).

(** C3 (evaluation of the code where it departs from the claim).
    [Expired] answers [false] for a persistent entry and compares the
    clock with the deadline otherwise ([Expired_persistent],
    [Expired_deadline]); it has no case for the zero timestamp.  A
    non-persistent entry whose [Expiration] is the zero [Time] is
    therefore reported as expired by every clock reading later than the
    zero instant, instead of being treated as never expiring. *)
Theorem Expired_zero_deadline x now :
  0 < time.wall now →
  Expired (mkItem false x time.zero) now = true.
Proof.
  intros Hnow. rewrite Expired_deadline by done. simpl.
  rewrite After_zero. by apply Z.ltb_lt.
Qed.

(** C1 (evaluation of the code where it departs from the claim).  An
    entry stored with [persitent = false] and a duration that resolves to
    "never expire" (the sentinel itself, or [DefaultExpiration] on a cache
    whose default is not positive) gets the zero [Time] as deadline.  The
    first [Load] whose clock reading is later than the zero instant
    reports it as not found and deletes it: the entry is not immortal. *)
Theorem Load_drops_entry_stored_without_deadline c k x d now now' :
  resolve c d ≤ 0 →
  0 < time.wall now' →
  Load (Store c k x d false now) k now'
  = ((None, false), withMap c (delete k (Map c))).
Proof.
  intros Hd Hnow.
  rewrite (Load_expired _ _ (mkItem false x time.zero)).
  - rewrite Store_resolve. unfold withMap. simpl.
    by rewrite delete_insert_eq.
  - by apply Store_nonpositive_item.
  - rewrite Expired_deadline by done. simpl.
    rewrite After_zero. by apply Z.ltb_lt.
Qed.

(** C10.  When the duration that [Store] is left with after replacing
    [DefaultExpiration] by the cache's default is not positive, whatever
    its value, the entry is stored with the zero [Time] as [Expiration];
    two such calls that agree on key, value and persistence leave the
    cache in the same state, whatever the durations and the clock. *)
Theorem Store_nonpositive_durations c k x persitent d d' now now' :
  resolve c d ≤ 0 →
  resolve c d' ≤ 0 →
  Map (Store c k x d persitent now) !! k
    = Some (mkItem persitent x time.zero) ∧
  Store c k x d persitent now = Store c k x d' persitent now'.
Proof.
  intros Hd Hd'. split; [by apply Store_nonpositive_item|].
  rewrite !Store_resolve.
  destruct (Z.ltb_spec 0 (resolve c d)); [lia|].
  destruct (Z.ltb_spec 0 (resolve c d')); [lia|]. done.
Qed.

End NoDeadline.

Lemma Expired_zero_deadline_witness :
  Expired (mkItem false (Some 7%nat) time.zero) (time.reading 0 0) = true.
Proof. apply Expired_zero_deadline. reflexivity. Defined.

Lemma Load_drops_entry_stored_without_deadline_witness :
  Load (Store (newCache 0 ∅) "a" (Some 7%nat) DefaultExpiration false
          (time.reading 0 0)) "a" (time.reading 1 1)
  = ((None, false), withMap (newCache 0 ∅) (delete "a" ∅)) ∧
  Load (Store (newCache 5 ∅) "a" (Some 7%nat) NoExpiration false
          (time.reading 0 0)) "a" (time.reading 1 1)
  = ((None, false), withMap (newCache 5 ∅) (delete "a" ∅)).
Proof.
  split.
  - apply (Load_drops_entry_stored_without_deadline (newCache 0 ∅));
      [vm_compute; discriminate | reflexivity].
  - apply (Load_drops_entry_stored_without_deadline (newCache 5 ∅));
      [vm_compute; discriminate | reflexivity].
Defined.

Lemma Store_nonpositive_durations_witness :
  Map (Store (newCache 5 ∅) "a" (Some 7%nat) (-1) false (time.reading 0 0))
    !! "a" = Some (mkItem false (Some 7%nat) time.zero) ∧
  Store (newCache 5 ∅) "a" (Some 7%nat) (-1) false (time.reading 0 0)
  = Store (newCache 5 ∅) "a" (Some 7%nat) (-3600) false (time.reading 9 9).
Proof.
  apply (Store_nonpositive_durations (newCache 5 ∅));
    vm_compute; discriminate.
Defined.

(** ** Load, Store and the constructor *)

Section Operations.

Context {V : Type}.
Implicit Types (c : Cache V) (item : Item V) (k : string) (x : option V).
Implicit Types (d : time.Duration) (now : time.Time).

(** C2.  [Load(k)] returns [(nil, false)] and leaves the cache as it is
    when [k] is absent; returns the stored value with [true], again
    without touching the cache, when the entry of [k] is persistent or
    not expired at the clock reading of the call; and when the entry is
    not persistent and expired at that reading it deletes [k] and returns
    [(nil, false)]. *)
Theorem Load_spec c k now :
  (Map c !! k = None → Load c k now = ((None, false), c)) ∧
  (∀ item, Map c !! k = Some item →
     Persistent item = true ∨ Expired item now = false →
     Load c k now = ((Object item, true), c)) ∧
  (∀ item, Map c !! k = Some item →
     Persistent item = false → Expired item now = true →
     Load c k now = ((None, false), withMap c (delete k (Map c))) ∧
     Map (snd (Load c k now)) !! k = None).
Proof.
  split; [|split].
  - intros Hk. unfold Load. by rewrite Hk.
  - intros item Hk [Hp|He].
    + apply Load_live; [done|]. by apply Expired_persistent.
    + by apply Load_live.
  - intros item Hk _ He. rewrite (Load_expired c k item now Hk He).
    split; [done|]. simpl. apply lookup_delete_eq.
Qed.

(** C4.  [newCache] replaces a default of [DefaultExpiration] (0) by
    [NoExpiration] (-1), so the default of a cache it returns is never
    [DefaultExpiration]; the same holds of the cache [New] returns. *)
Theorem newCache_normalizes_default :
  (∀ m : gmap string (Item V),
     defaultExpiration (newCache DefaultExpiration m) = NoExpiration) ∧
  (∀ de (m : gmap string (Item V)),
     defaultExpiration (newCache de m) ≠ DefaultExpiration) ∧
  (∀ ci, defaultExpiration (Sched.cache (@Sched.New V DefaultExpiration ci))
         = NoExpiration) ∧
  (∀ de ci, defaultExpiration (Sched.cache (@Sched.New V de ci))
            ≠ DefaultExpiration).
Proof.
  assert (Hne : ∀ de (m : gmap string (Item V)),
            defaultExpiration (newCache de m) ≠ DefaultExpiration).
  { intros de m. unfold newCache, DefaultExpiration. simpl.
    destruct (Z.eqb_spec de 0); lia. }
  repeat split; try done.
  intros de ci. unfold Sched.New.
  destruct (0 <? de); simpl; apply (Hne de ∅).
Qed.

(** The entries a map enumerates under one key: exactly one when the key
    is bound. *)
Lemma filter_key_absent (l : list (string * Item V)) k :
  k ∉ l.*1 → filter (λ e, e.1 = k) l = [].
Proof.
  induction l as [|[k' v'] l IH]; [done|].
  rewrite fmap_cons, not_elem_of_cons. simpl. intros [Hne Hl].
  rewrite filter_cons_False by (simpl; congruence). by apply IH.
Qed.

Lemma filter_key_NoDup (l : list (string * Item V)) k item :
  NoDup l.*1 → (k, item) ∈ l →
  filter (λ e, e.1 = k) l = [(k, item)].
Proof.
  induction l as [|[k' v'] l IH]; intros Hnd Hin.
  { by apply elem_of_nil in Hin. }
  rewrite fmap_cons in Hnd. apply NoDup_cons in Hnd as [Hk' Hnd].
  simpl in Hk'. apply elem_of_cons in Hin as [Heq|Hin].
  - injection Heq as <- <-.
    rewrite filter_cons_True by done. f_equal. by apply filter_key_absent.
  - rewrite filter_cons_False; [by apply IH|].
    simpl. intros ->. apply Hk'. apply list_elem_of_fmap. by exists (k, item).
Qed.

Lemma one_entry_per_key (m : gmap string (Item V)) k item :
  m !! k = Some item →
  filter (λ e, e.1 = k) (map_to_list m) = [(k, item)].
Proof.
  intros Hk. apply filter_key_NoDup.
  - apply NoDup_fst_map_to_list.
  - by apply elem_of_map_to_list.
Qed.

(** C8.  Two [Store]s under the same key leave the cache as the second
    alone would: the entry of [k] is the one built from the value, the
    duration and the persistence flag of the second call, it is the only
    entry the map holds under [k], and the other keys are as before the
    first call.  [Store] has no result besides the cache. *)
Theorem Store_overwrites c k x1 d1 p1 now1 x2 d2 p2 now2 :
  let c1 := Store c k x1 d1 p1 now1 in
  let c2 := Store c1 k x2 d2 p2 now2 in
  let latest :=
    mkItem p2 x2 (if 0 <? resolve c d2
                  then time.Add now2 (resolve c d2) else time.zero) in
  c2 = Store c k x2 d2 p2 now2 ∧
  Map c2 !! k = Some latest ∧
  filter (λ e, e.1 = k) (map_to_list (Map c2)) = [(k, latest)] ∧
  size (Map c2) = size (Map c1) ∧
  (∀ k', k ≠ k' → Map c2 !! k' = Map c !! k').
Proof.
  intros c1 c2 latest.
  assert (Heq : c2 = Store c k x2 d2 p2 now2).
  { unfold c2, c1. rewrite !Store_resolve. unfold withMap, resolve. simpl.
    by rewrite insert_insert_eq. }
  assert (Hk : Map c2 !! k = Some latest).
  { rewrite Heq. apply Store_lookup. }
  repeat split; try done.
  - by apply one_entry_per_key.
  - unfold c2. rewrite (Store_resolve c1). simpl.
    apply map_size_insert_Some. exists (mkItem p1 x1
      (if 0 <? resolve c d1 then time.Add now1 (resolve c d1) else time.zero)).
    apply Store_lookup.
  - intros k' Hne. rewrite Heq. by apply Store_lookup_ne.
Qed.

End Operations.

Lemma Load_spec_witness :
  let c := Store (Store (newCache 5 ∅) "p" (Some 1%nat) 0 true
                    (time.reading 0 0))
                 "e" (Some 2%nat) 3 false (time.reading 0 0) in
  Load c "absent" (time.reading 9 9) = ((None, false), c) ∧
  Load c "p" (time.reading 9 9) = ((Some 1%nat, true), c) ∧
  Load c "e" (time.reading 2 2) = ((Some 2%nat, true), c) ∧
  Load c "e" (time.reading 9 9)
  = ((None, false), withMap c (delete "e" (Map c))).
Proof.
  intros c.
  split; [|split; [|split]].
  - apply (proj1 (Load_spec c "absent" (time.reading 9 9))).
    vm_compute. reflexivity.
  - apply (proj1 (proj2 (Load_spec c "p" (time.reading 9 9)))
             (mkItem true (Some 1%nat) (time.reading 5 5))).
    + vm_compute. reflexivity.
    + left. reflexivity.
  - apply (proj1 (proj2 (Load_spec c "e" (time.reading 2 2)))
             (mkItem false (Some 2%nat) (time.reading 3 3))).
    + vm_compute. reflexivity.
    + right. reflexivity.
  - apply (proj2 (proj2 (Load_spec c "e" (time.reading 9 9)))
             (mkItem false (Some 2%nat) (time.reading 3 3))).
    + vm_compute. reflexivity.
    + reflexivity.
    + reflexivity.
Defined.

Lemma Store_overwrites_witness :
  let c1 := Store (newCache 5 ∅) "a" (Some 1%nat) 60 true (time.reading 0 0) in
  let c2 := Store c1 "a" (Some 2%nat) NoExpiration false (time.reading 9 9) in
  Map c2 !! "a" = Some (mkItem false (Some 2%nat) time.zero) ∧
  filter (λ e, e.1 = "a") (map_to_list (Map c2))
  = [("a", mkItem false (Some 2%nat) time.zero)] ∧
  size (Map c2) = size (Map c1).
Proof.
  intros c1 c2.
  destruct (Store_overwrites (newCache 5 ∅) "a" (Some 1%nat) 60 true
              (time.reading 0 0) (Some 2%nat) NoExpiration false
              (time.reading 9 9)) as (_ & Hk & Hone & Hsize & _).
  split; [exact Hk|]. split; [exact Hone|exact Hsize].
Defined.

(** ** DeleteExpired *)

Section Sweep.

Context {V : Type}.
Implicit Types (c : Cache V) (item : Item V) (k : string).
Implicit Types (l : list (string * Item V)) (clock : string → time.Time).

Lemma sweep_cons clock k item l c :
  rangeOver (sweepVisitor clock) ((k, item) :: l) c
  = rangeOver (sweepVisitor clock) l
      (if Expired item (clock k) then Delete c k else c).
Proof. reflexivity. Qed.

Lemma sweep_fields clock l c :
  defaultExpiration (rangeOver (sweepVisitor clock) l c) = defaultExpiration c ∧
  stop (rangeOver (sweepVisitor clock) l c) = stop c.
Proof.
  revert c. induction l as [|[k item] l IH]; intros c; [done|].
  rewrite sweep_cons. destruct (IH (if Expired item (clock k)
                                    then Delete c k else c)) as [-> ->].
  by destruct (Expired item (clock k)).
Qed.

(** A sweep never binds a key. *)
Lemma sweep_lookup_None clock l c k :
  Map c !! k = None → Map (rangeOver (sweepVisitor clock) l c) !! k = None.
Proof.
  revert c. induction l as [|[k' item] l IH]; intros c Hk; [done|].
  rewrite sweep_cons. apply IH.
  destruct (Expired item (clock k')); [|done].
  simpl. destruct (decide (k' = k)) as [->|Hne].
  - apply lookup_delete_eq.
  - by rewrite lookup_delete_ne.
Qed.

(** A visited entry that [Expired] reports is gone afterwards. *)
Lemma sweep_removes clock l c k item :
  (k, item) ∈ l → Expired item (clock k) = true →
  Map (rangeOver (sweepVisitor clock) l c) !! k = None.
Proof.
  revert c. induction l as [|[k' item'] l IH]; intros c Hin He.
  { by apply elem_of_nil in Hin. }
  rewrite sweep_cons. apply elem_of_cons in Hin as [Heq|Hin].
  - injection Heq as <- <-. rewrite He.
    apply sweep_lookup_None. simpl. apply lookup_delete_eq.
  - by apply IH.
Qed.

(** A key none of whose visited entries [Expired] reports is untouched. *)
Lemma sweep_keeps clock l c k :
  (∀ item, (k, item) ∈ l → Expired item (clock k) = false) →
  Map (rangeOver (sweepVisitor clock) l c) !! k = Map c !! k.
Proof.
  revert c. induction l as [|[k' item'] l IH]; intros c Hl; [done|].
  rewrite sweep_cons. rewrite IH.
  - destruct (Expired item' (clock k')) eqn:He; [|done].
    simpl. apply lookup_delete_ne. intros ->.
    rewrite Hl in He; [done|]. apply elem_of_cons. by left.
  - intros item Hin. apply Hl. apply elem_of_cons. by right.
Qed.

(** C5.  [DeleteExpired] removes the entries for which [Expired()]
    answers [true] when the sweep calls it on them, and only those: an
    entry for which it answers [false] stays as it is, no key is added, a
    persistent entry always stays, and the other fields of the cache are
    untouched. *)
Theorem DeleteExpired_spec c clock :
  (∀ k item, Map c !! k = Some item → Expired item (clock k) = true →
     Map (DeleteExpired c clock) !! k = None) ∧
  (∀ k item, Map c !! k = Some item → Expired item (clock k) = false →
     Map (DeleteExpired c clock) !! k = Some item) ∧
  (∀ k, Map c !! k = None → Map (DeleteExpired c clock) !! k = None) ∧
  (∀ k item, Map c !! k = Some item → Persistent item = true →
     Map (DeleteExpired c clock) !! k = Some item) ∧
  defaultExpiration (DeleteExpired c clock) = defaultExpiration c ∧
  stop (DeleteExpired c clock) = stop c.
Proof.
  unfold DeleteExpired, syncRange.
  assert (Hkeep : ∀ k item, Map c !! k = Some item →
            Expired item (clock k) = false →
            Map (rangeOver (sweepVisitor clock) (map_to_list (Map c)) c) !! k
            = Some item).
  { intros k item Hk He. rewrite sweep_keeps; [done|].
    intros item' Hin%elem_of_map_to_list. congruence. }
  split; [|split; [|split; [|split]]].
  - intros k item Hk He. apply (sweep_removes _ _ _ _ item); [|done].
    by apply elem_of_map_to_list.
  - done.
  - intros k Hk. by apply sweep_lookup_None.
  - intros k item Hk Hp. apply Hkeep; [done|]. by apply Expired_persistent.
  - apply sweep_fields.
Qed.

End Sweep.

Lemma DeleteExpired_spec_witness :
  let c := Store (Store (Store (newCache 5 ∅)
                    "p" (Some 1%nat) 3 true (time.reading 0 0))
                    "e" (Some 2%nat) 3 false (time.reading 0 0))
                    "f" (Some 3%nat) 30 false (time.reading 0 0) in
  let clock := λ _ : string, time.reading 9 9 in
  Map (DeleteExpired c clock) !! "e" = None ∧
  Map (DeleteExpired c clock) !! "f"
  = Some (mkItem false (Some 3%nat) (time.reading 30 30)) ∧
  Map (DeleteExpired c clock) !! "absent" = None ∧
  Map (DeleteExpired c clock) !! "p"
  = Some (mkItem true (Some 1%nat) (time.reading 3 3)).
Proof.
  intros c clock.
  destruct (DeleteExpired_spec c clock) as (Hdel & Hkeep & Hnone & Hpers & _).
  split; [|split; [|split]].
  - apply (Hdel "e" (mkItem false (Some 2%nat) (time.reading 3 3)));
      vm_compute; reflexivity.
  - apply Hkeep; vm_compute; reflexivity.
  - apply Hnone. vm_compute. reflexivity.
  - apply Hpers; vm_compute; reflexivity.
Defined.

(** ** Range *)

Section Iterate.

Context {V St : Type}.
Implicit Types (c : Cache V) (item : Item V) (k : string) (s : St).
Implicit Types (f : string → Item V → St → bool * St).
Implicit Types (l rest : list (string * Item V)).
Implicit Types (log pre : list (string * Item V * bool)).

(** The calls a walk makes: a run of calls answered [true], one per entry
    and in the order of the entries, that either exhausts the entries or
    ends with the first call answered [false].  Recording the calls does
    not change what the visitor computes. *)
Lemma rangeOver_logged f l log0 s :
  ∃ log rest pre,
    rangeOver (logged f) l (log0, s) = (log0 ++ log, rangeOver f l s) ∧
    l = log.*1 ++ rest ∧
    Forall (λ r, ∃ s0, (f r.1.1 r.1.2 s0).1 = r.2) log ∧
    Forall (λ r, r.2 = true) pre ∧
    ((log = pre ∧ rest = []) ∨ (∃ e, log = pre ++ [(e, false)])).
Proof.
  revert log0 s. induction l as [|[k item] l IH]; intros log0 s.
  { exists [], [], []. rewrite app_nil_r. repeat split; auto. }
  simpl. unfold logged at 1. simpl.
  destruct (f k item s) as [continue s'] eqn:Hf.
  assert (Hans : ∃ s0, (f k item s0).1 = continue).
  { exists s. by rewrite Hf. }
  destruct continue.
  - destruct (IH (log0 ++ [(k, item, true)]) s')
      as (log & rest & pre & Hrun & Hl & Hlog & Hpre & Hend).
    exists ((k, item, true) :: log), rest, ((k, item, true) :: pre).
    split; [|split; [|split; [|split]]].
    + rewrite Hrun. by rewrite <- app_assoc.
    + simpl. by rewrite Hl at 1.
    + by constructor.
    + by constructor.
    + destruct Hend as [[-> ->]|[e ->]]; [by left|right]. by exists e.
  - exists [(k, item, false)], l, [].
    split; [|split; [|split; [|split]]]; try done.
    + by repeat constructor.
    + right. by exists (k, item).
Qed.

(** C9.  [Range] calls the visitor on the entries the map holds, each at
    most once and without consulting the clock or [Expired]: the calls
    are a run of calls answered [true] that either covers every stored
    entry or is closed by the first call answered [false], after which no
    further call is made.  A visitor that never answers [false] is thus
    called on every stored entry, expired or not.  [Range] hands back
    nothing but the visitor's state; the cache is not changed. *)
Theorem Range_visits c f s :
  ∃ log rest pre,
    Range c (logged f) ([], s) = (log, Range c f s) ∧
    map_to_list (Map c) = log.*1 ++ rest ∧
    NoDup (log.*1).*1 ∧
    Forall (λ r, ∃ s0, (f r.1.1 r.1.2 s0).1 = r.2) log ∧
    Forall (λ r, r.2 = true) pre ∧
    ((log = pre ∧ rest = []) ∨ (∃ e, log = pre ++ [(e, false)])) ∧
    ((∀ k item s0, (f k item s0).1 = true) →
     ∀ k item, Map c !! k = Some item → (k, item, true) ∈ log).
Proof.
  unfold Range, syncRange.
  destruct (rangeOver_logged f (map_to_list (Map c)) [] s)
    as (log & rest & pre & Hrun & Hl & Hlog & Hpre & Hend).
  exists log, rest, pre.
  split; [done|]. split; [done|]. split.
  { pose proof (NoDup_fst_map_to_list (Map c)) as Hnd.
    rewrite Hl, fmap_app in Hnd. by apply NoDup_app in Hnd as [? _]. }
  split; [done|]. split; [done|]. split; [done|].
  intros Htrue k item Hk.
  destruct Hend as [[-> ->]|[e ->]].
  - apply elem_of_map_to_list in Hk. rewrite Hl, app_nil_r in Hk.
    apply list_elem_of_fmap in Hk as ([[k' item'] b] & Heq & Hin).
    simpl in Heq. injection Heq as -> ->.
    rewrite Forall_forall in Hpre. by rewrite <- (Hpre _ Hin) at 1.
  - rewrite Forall_app, Forall_singleton in Hlog.
    destruct Hlog as [_ [s0 Hs0]]. simpl in Hs0.
    by rewrite Htrue in Hs0.
Qed.

(** In particular an entry that is expired at the time of the walk, and
    that no [Load] or sweep has removed yet, is handed to the visitor. *)
Lemma Range_visits_expired c f s now k item :
  (∀ k item s0, (f k item s0).1 = true) →
  Map c !! k = Some item → Expired item now = true →
  (k, item, true) ∈ (Range c (logged f) ([], s)).1.
Proof.
  intros Htrue Hk _. unfold Range, syncRange.
  destruct (rangeOver_logged f (map_to_list (Map c)) [] s)
    as (log & rest & pre & -> & Hl & Hlog & Hpre & Hend).
  simpl. destruct Hend as [[-> ->]|[e ->]].
  - apply elem_of_map_to_list in Hk. rewrite Hl, app_nil_r in Hk.
    apply list_elem_of_fmap in Hk as ([[k' item'] b] & Heq & Hin).
    simpl in Heq. injection Heq as -> ->.
    rewrite Forall_forall in Hpre. by rewrite <- (Hpre _ Hin) at 1.
  - rewrite Forall_app, Forall_singleton in Hlog.
    destruct Hlog as [_ [s0 Hs0]]. simpl in Hs0.
    by rewrite Htrue in Hs0.
Qed.

End Iterate.

Lemma Range_visits_witness :
  let c := Store (Store (newCache 5 ∅)
                    "e" (Some 2%nat) 3 false (time.reading 0 0))
                    "f" (Some 3%nat) 30 false (time.reading 0 0) in
  let always := λ (_ : string) (_ : Item nat) (n : nat), (true, S n) in
  Expired (mkItem false (Some 2%nat) (time.reading 3 3)) (time.reading 9 9)
  = true ∧
  ("e", mkItem false (Some 2%nat) (time.reading 3 3), true)
  ∈ (Range c (logged always) ([], 0%nat)).1 ∧
  Range c always 0%nat = 2%nat.
Proof.
  intros c always. split; [reflexivity|]. split; [|reflexivity].
  destruct (Range_visits c always 0%nat)
    as (log & rest & pre & Hrun & _ & _ & _ & _ & _ & Hall).
  rewrite Hrun. simpl. apply Hall.
  - intros; reflexivity.
  - vm_compute. reflexivity.
Defined.

(** A visitor that counts its calls and asks to go on only after the
    first of them: of three stored entries it is handed two. *)
Example Range_stops_early :
  let c := Store (Store (Store (newCache 5 ∅)
                    "e" (Some 2%nat) 3 false (time.reading 0 0))
                    "f" (Some 3%nat) 30 false (time.reading 0 0))
                    "g" (Some 4%nat) 30 true (time.reading 0 0) in
  let twice := λ (_ : string) (_ : Item nat) (n : nat),
                 (Nat.ltb (S n) 2, S n) in
  Range c twice 0%nat = 2%nat ∧
  (snd <$> (Range c (logged twice) ([], 0%nat)).1) = [true; false].
Proof. vm_compute. split; reflexivity. Qed.

(** ** The background sweep *)

Section Background.

Context {V : Type}.
Implicit Types (w : Sched.World V) (e : Sched.Event V).
Implicit Types (evs : list (Sched.Event V)).

Lemma New_stop de ci : stop (Sched.cache (@Sched.New V de ci)) = nilChan.
Proof. unfold Sched.New. by destruct (0 <? de). Qed.

Lemma New_positive de ci :
  0 < de →
  @Sched.New V de ci
  = Sched.mkWorld (newCache de ∅) (Sched.gcSpawned ci) Sched.finSet.
Proof.
  intros Hde. unfold Sched.New.
  destruct (Z.ltb_spec 0 de); [done|lia].
Qed.

(** No action of any participant assigns [c.stop]. *)
Lemma step_stop w e w' :
  Sched.step w e = Some w' →
  stop (Sched.cache w') = stop (Sched.cache w).
Proof.
  unfold Sched.step. intros Hstep.
  destruct (Sched.janitor w) eqn:Hj; [| | |done|];
    destruct e; simpl in Hstep;
    repeat match type of Hstep with
    | context [match ?a with _ => _ end] => destruct a eqn:?
    end;
    try discriminate; injection Hstep as <-; simpl;
    try done;
    first [ apply sweep_fields | apply Store_fields | apply Load_fields ].
Qed.

(** The sweep task returns, and the send of [stopGC] completes, only by
    the two of them meeting on [c.stop]. *)
Lemma step_stopped w e w' :
  Sched.step w e = Some w' →
  (∃ t, Sched.janitor w' = Sched.gcReturned t) ∨
  Sched.finalizer w' = Sched.finReturned →
  (∃ t, Sched.janitor w = Sched.gcReturned t) ∨
  Sched.finalizer w = Sched.finReturned ∨
  Sched.canRendezvous (stop (Sched.cache w)) = true.
Proof.
  unfold Sched.step. intros Hstep Hw'.
  destruct (Sched.janitor w) eqn:Hj; [| | |done|by left; eauto];
    destruct e; simpl in Hstep;
    repeat match type of Hstep with
    | context [match ?a with _ => _ end] => destruct a eqn:?
    end;
    try discriminate; try (by right; right);
    injection Hstep as <-; simpl in Hw'; rewrite ?Hj in Hw';
    destruct Hw' as [[t Ht]|Hf]; try discriminate;
    try (by right; left).
  unfold Sched.gcBegin in Ht. by destruct (time.NewTicker ci).
Qed.

Lemma neverStopped_step w e w' :
  Sched.neverStopped w → Sched.step w e = Some w' → Sched.neverStopped w'.
Proof.
  intros (Hnil & Hj & Hf) Hstep. split; [|split].
  - by rewrite (step_stop _ _ _ Hstep).
  - intros t Ht.
    destruct (step_stopped _ _ _ Hstep) as [[t' Ht']|[Hf'|Hr]]; [eauto| | |].
    + by apply (Hj t').
    + done.
    + by rewrite Hnil in Hr.
  - intros Hf'.
    destruct (step_stopped _ _ _ Hstep) as [[t' Ht']|[Hf0|Hr]]; [eauto| | |].
    + by apply (Hj t').
    + done.
    + by rewrite Hnil in Hr.
Qed.

Lemma neverStopped_run evs w w' :
  Sched.neverStopped w → Sched.run w evs = Some w' → Sched.neverStopped w'.
Proof.
  revert w. induction evs as [|e evs IH]; intros w Hw Hrun; simpl in Hrun.
  - by injection Hrun as <-.
  - destruct (Sched.step w e) as [w1|] eqn:Hstep; [|done].
    apply (IH w1); [|done]. by apply (neverStopped_step w e).
Qed.

Lemma neverStopped_New de ci : Sched.neverStopped (@Sched.New V de ci).
Proof.
  split; [apply New_stop|]. unfold Sched.New.
  by destruct (0 <? de).
Qed.

Lemma nil_stop_blocks w :
  stop (Sched.cache w) = nilChan → Sched.step w Sched.evStop = None.
Proof.
  intros Hnil. unfold Sched.step. rewrite Hnil. simpl.
  destruct (Sched.janitor w); try done.
  by destruct (Sched.finalizer w).
Qed.

End Background.

Section BackgroundClaims.

Context {V : Type}.
Implicit Types (w : Sched.World V) (e : Sched.Event V).
Implicit Types (evs : list (Sched.Event V)).

Lemma tickerless_step ci w e w' :
  ci ≤ 0 → Sched.tickerless ci w → Sched.step w e = Some w' →
  Sched.tickerless ci w'.
Proof.
  intros Hci [Hj|Hj] Hstep; unfold Sched.step in Hstep; rewrite Hj in Hstep;
    [|done].
  destruct e; simpl in Hstep; try discriminate;
    repeat match type of Hstep with
    | context [match ?a with _ => _ end] => destruct a eqn:?
    end;
    try discriminate; injection Hstep as <-;
    unfold Sched.tickerless; simpl; rewrite ?Hj; auto.
  right. unfold Sched.gcBegin, time.NewTicker.
  destruct (Z.leb_spec ci 0); [done|lia].
Qed.

Lemma tickerless_run ci evs w w' :
  ci ≤ 0 → Sched.tickerless ci w → Sched.run w evs = Some w' →
  Sched.tickerless ci w'.
Proof.
  intros Hci. revert w.
  induction evs as [|e evs IH]; intros w Hw Hrun; simpl in Hrun.
  - by injection Hrun as <-.
  - destruct (Sched.step w e) as [w1|] eqn:Hstep; [|done].
    apply (IH w1); [|done]. by apply (tickerless_step ci w e).
Qed.

(** C6 (evaluation of the code where it departs from the claim).  With a
    positive default expiration and a cleanup interval that is not
    positive, [New] does start the sweep task and the task never sweeps,
    but not because it idles: its first action, [time.NewTicker(ci)],
    panics, and after the panic nothing in the program takes a step. *)
Theorem gc_panics_on_nonpositive_interval de ci :
  0 < de → ci ≤ 0 →
  Sched.janitor (@Sched.New V de ci) = Sched.gcSpawned ci ∧
  Sched.step (@Sched.New V de ci) Sched.evBegin
  = Some (Sched.mkWorld (newCache de ∅) Sched.gcPanicked Sched.finSet) ∧
  (∀ e, Sched.step
          (Sched.mkWorld (newCache de ∅) Sched.gcPanicked Sched.finSet) e
        = None) ∧
  (∀ evs w, Sched.run (@Sched.New V de ci) evs = Some w →
     ∀ clock, Sched.step w (Sched.evTick clock) = None).
Proof.
  intros Hde Hci. rewrite (New_positive de ci Hde).
  split; [done|]. split; [|split].
  - unfold Sched.step. simpl. unfold Sched.gcBegin, time.NewTicker.
    destruct (Z.leb_spec ci 0); [done|lia].
  - done.
  - intros evs w Hrun clock.
    assert (Ht : Sched.tickerless ci w).
    { eapply (tickerless_run ci evs); [done| |exact Hrun]. by left. }
    unfold Sched.step. by destruct Ht as [-> | ->].
Qed.

(** C7 (evaluation of the code where it departs from the claim).
    [newCache] leaves [c.stop] at [nil] and nothing assigns it later, so
    in every state the program reaches from [New] the send of [stopGC]
    and the receive of the sweep task cannot meet: the task never stops
    its ticker and returns, and [stopGC] never completes. *)
Theorem gc_never_stops de ci evs w :
  Sched.run (@Sched.New V de ci) evs = Some w →
  stop (Sched.cache w) = nilChan ∧
  Sched.step w Sched.evStop = None ∧
  (∀ t, Sched.janitor w ≠ Sched.gcReturned t) ∧
  Sched.finalizer w ≠ Sched.finReturned.
Proof.
  intros Hrun.
  destruct (neverStopped_run evs _ w (neverStopped_New de ci) Hrun)
    as (Hnil & Hj & Hf).
  split; [done|]. split; [by apply nil_stop_blocks|done].
Qed.

End BackgroundClaims.

Lemma gc_panics_on_nonpositive_interval_witness :
  Sched.step (@Sched.New nat 1 0) Sched.evBegin
  = Some (Sched.mkWorld (newCache 1 ∅) Sched.gcPanicked Sched.finSet).
Proof.
  apply (gc_panics_on_nonpositive_interval (V:=nat) 1 0); vm_compute;
    [reflexivity | discriminate].
Defined.

Lemma gc_never_stops_witness :
  let evs := [Sched.evBegin;
              Sched.evStore "a" (Some 7%nat) 0 false (time.reading 0 0);
              Sched.evTick (λ _, time.reading 5 5);
              Sched.evFinalize] in
  let w := Sched.mkWorld (mkCache 1 ∅ nilChan)
             (Sched.gcSelect (time.mkTicker 1 true)) Sched.finSending in
  Sched.run (@Sched.New nat 1 1) evs = Some w ∧
  Sched.step w Sched.evStop = None.
Proof.
  intros evs w.
  assert (Hrun : Sched.run (@Sched.New nat 1 1) evs = Some w)
    by (vm_compute; reflexivity).
  split; [exact Hrun|].
  exact (proj1 (proj2 (gc_never_stops 1 1 evs w Hrun))).
Defined.

(** * Further properties of the operations *)

(** ** Delete, and how Store, Load and Delete compose *)

Section Compose.

Context {V : Type}.
Implicit Types (c : Cache V) (item : Item V) (k : string) (x : option V).
Implicit Types (d : time.Duration) (now : time.Time).

Lemma withMap_id c : withMap c (Map c) = c.
Proof. by destruct c. Qed.

Lemma Cache_eq c c' :
  defaultExpiration c = defaultExpiration c' → Map c = Map c' →
  stop c = stop c' → c = c'.
Proof. destruct c, c'. simpl. by intros -> -> ->. Qed.

(** X1.  [Delete(k)] unbinds [k] and nothing else, and a later [Load(k)]
    reports it as not found without changing the cache again. *)
Theorem Delete_then_Load c k now :
  Map (Delete c k) !! k = None ∧
  (∀ k', k ≠ k' → Map (Delete c k) !! k' = Map c !! k') ∧
  Load (Delete c k) k now = ((None, false), Delete c k).
Proof.
  assert (Hk : Map (Delete c k) !! k = None) by apply lookup_delete_eq.
  split; [done|]. split.
  - intros k' Hne. simpl. by apply lookup_delete_ne.
  - unfold Load. by rewrite Hk.
Qed.

(** X2.  [Delete] of a key the cache does not hold leaves the cache exactly as
    it was. *)
Theorem Delete_absent c k :
  Map c !! k = None → Delete c k = c.
Proof.
  intros Hk. unfold Delete. rewrite delete_id by done. apply withMap_id.
Qed.

(** X3.  [Delete] undoes [Store]: deleting the key just stored gives the cache
    that deleting it before the [Store] gives, and gives back the cache
    itself when the key was not bound before. *)
Theorem Delete_after_Store c k x d persitent now :
  Delete (Store c k x d persitent now) k = Delete c k ∧
  (Map c !! k = None → Delete (Store c k x d persitent now) k = c).
Proof.
  assert (Heq : Delete (Store c k x d persitent now) k = Delete c k).
  { rewrite Store_resolve. unfold Delete, withMap. simpl.
    by rewrite delete_insert_eq. }
  split; [done|]. intros Hk. rewrite Heq.
  unfold Delete. rewrite delete_id by done. apply withMap_id.
Qed.

(** X4.  [Store]s under different keys commute: the cache after both does not
    depend on which came first. *)
Theorem Store_commute c k1 x1 d1 p1 now1 k2 x2 d2 p2 now2 :
  k1 ≠ k2 →
  Store (Store c k1 x1 d1 p1 now1) k2 x2 d2 p2 now2
  = Store (Store c k2 x2 d2 p2 now2) k1 x1 d1 p1 now1.
Proof.
  intros Hne. rewrite !Store_resolve. unfold withMap, resolve. simpl.
  by rewrite insert_insert_ne.
Qed.

(** X5.  A persistent entry is returned by [Load] whatever duration it was
    stored with and whatever the clock reads, and [Load] leaves the
    cache as it is. *)
Theorem Load_persistent c k x d now now' :
  Load (Store c k x d true now) k now'
  = ((x, true), Store c k x d true now).
Proof.
  apply (Load_live _ k (mkItem true x
           (if 0 <? resolve c d
            then time.Add now (resolve c d) else time.zero)));
    [apply Store_lookup|done].
Qed.

(** X6.  An entry stored with a positive duration [d] (given or taken from the
    cache's default) at monotonic reading [m] is returned by a [Load] at
    monotonic reading [m'] as long as [m' ≤ m + d]: the deadline itself
    is still inside the lifetime. *)
Theorem Load_before_deadline c k x d ns m ns' m' :
  0 < resolve c d →
  m' ≤ m + resolve c d →
  Load (Store c k x d false (time.reading ns m)) k (time.reading ns' m')
  = ((x, true), Store c k x d false (time.reading ns m)).
Proof.
  intros Hd Hm.
  apply (Load_live _ k (mkItem false x
           (if 0 <? resolve c d
            then time.Add (time.reading ns m) (resolve c d)
            else time.zero)));
    [apply Store_lookup|].
  rewrite Expired_deadline by done. simpl.
  destruct (Z.ltb_spec 0 (resolve c d)); [|lia].
  unfold time.After. simpl. by apply Z.ltb_ge.
Qed.

(** X7.  Past the deadline, [m + d < m'], the same [Load] reports the entry as
    not found and removes it: the cache is left as if the key had been
    deleted before the [Store]. *)
Theorem Load_after_deadline c k x d ns m ns' m' :
  0 < resolve c d →
  m + resolve c d < m' →
  Load (Store c k x d false (time.reading ns m)) k (time.reading ns' m')
  = ((None, false), Delete c k).
Proof.
  intros Hd Hm.
  rewrite (Load_expired _ k (mkItem false x
             (if 0 <? resolve c d
              then time.Add (time.reading ns m) (resolve c d)
              else time.zero))); [|apply Store_lookup|].
  - rewrite Store_resolve. unfold Delete, withMap. simpl.
    by rewrite delete_insert_eq.
  - rewrite Expired_deadline by done. simpl.
    destruct (Z.ltb_spec 0 (resolve c d)); [|lia].
    unfold time.After. simpl. by apply Z.ltb_lt.
Qed.

(** X8.  [Load(k)] touches no other key, never binds a key, and keeps the
    default expiration of the cache. *)
Theorem Load_frame c k now :
  (∀ k', k ≠ k' → Map (snd (Load c k now)) !! k' = Map c !! k') ∧
  Map (snd (Load c k now)) ⊆ Map c ∧
  defaultExpiration (snd (Load c k now)) = defaultExpiration c.
Proof.
  split; [|split; [|apply Load_fields]].
  - intros k' Hne. unfold Load. destruct (Map c !! k) as [item|]; [|done].
    destruct (negb (Persistent item) && time.After now (Expiration item));
      [|done].
    simpl. by apply lookup_delete_ne.
  - unfold Load. destruct (Map c !! k) as [item|]; [|done].
    destruct (negb (Persistent item) && time.After now (Expiration item));
      [|done].
    simpl. apply delete_subseteq.
Qed.

(** X9.  A second [Load(k)] at the same clock reading answers as the first and
    changes nothing further. *)
Theorem Load_twice c k now :
  Load (snd (Load c k now)) k now
  = (fst (Load c k now), snd (Load c k now)).
Proof.
  unfold Load at 2 3 4. destruct (Map c !! k) as [item|] eqn:Hk.
  - destruct (negb (Persistent item) && time.After now (Expiration item))
      eqn:He; simpl.
    + unfold Load. simpl. by rewrite lookup_delete_eq.
    + unfold Load. by rewrite Hk, He.
  - simpl. unfold Load. by rewrite Hk.
Qed.

End Compose.

Lemma Delete_absent_witness :
  Delete (Store (newCache 5 ∅) "a" (Some 1%nat) 0 false (time.reading 0 0))
         "b"
  = Store (newCache 5 ∅) "a" (Some 1%nat) 0 false (time.reading 0 0).
Proof. apply Delete_absent. vm_compute. reflexivity. Defined.

Lemma Store_commute_witness :
  Store (Store (newCache 5 ∅) "a" (Some 1%nat) 0 false (time.reading 0 0))
        "b" (Some 2%nat) (-1) true (time.reading 1 1)
  = Store (Store (newCache 5 ∅) "b" (Some 2%nat) (-1) true (time.reading 1 1))
          "a" (Some 1%nat) 0 false (time.reading 0 0).
Proof. apply Store_commute. discriminate. Defined.

Lemma Load_before_deadline_witness :
  Load (Store (newCache 50 ∅) "a" (Some 1%nat) DefaultExpiration false
          (time.reading 0 0)) "a" (time.reading 50 50)
  = ((Some 1%nat, true),
     Store (newCache 50 ∅) "a" (Some 1%nat) DefaultExpiration false
       (time.reading 0 0)).
Proof.
  apply (Load_before_deadline (newCache 50 ∅)); vm_compute;
    [reflexivity | discriminate].
Defined.

Lemma Load_after_deadline_witness :
  Load (Store (newCache 50 ∅) "a" (Some 1%nat) DefaultExpiration false
          (time.reading 0 0)) "a" (time.reading 51 51)
  = ((None, false), Delete (newCache 50 ∅) "a").
Proof.
  apply (Load_after_deadline (newCache 50 ∅)); vm_compute; reflexivity.
Defined.

(** ** Sweeps, and how they compose with Load *)

Section SweepCompose.

Context {V : Type}.
Implicit Types (c : Cache V) (item : Item V) (k : string).
Implicit Types (clock : string → time.Time) (now : time.Time).

(** What a sweep leaves under each key. *)
Lemma sweep_lookup c clock k :
  Map (DeleteExpired c clock) !! k
  = match Map c !! k with
    | Some item => if Expired item (clock k) then None else Some item
    | None => None
    end.
Proof.
  unfold DeleteExpired, syncRange.
  destruct (Map c !! k) as [item|] eqn:Hk.
  - destruct (Expired item (clock k)) eqn:He.
    + apply (sweep_removes _ _ _ _ item); [|done].
      by apply elem_of_map_to_list.
    + rewrite sweep_keeps; [done|].
      intros item' Hin%elem_of_map_to_list. congruence.
  - by apply sweep_lookup_None.
Qed.

Lemma sweep_eq c c' clock :
  defaultExpiration c' = defaultExpiration c → stop c' = stop c →
  (∀ k, Map c' !! k = Map (DeleteExpired c clock) !! k) →
  c' = DeleteExpired c clock.
Proof.
  intros Hd Hs Hm. apply Cache_eq.
  - rewrite Hd. symmetry. apply sweep_fields.
  - by apply map_eq.
  - rewrite Hs. symmetry. apply sweep_fields.
Qed.

(** X11.  After a sweep the map is a part of the map before, and no entry that
    is left is one for which [Expired()] answered [true]. *)
Theorem DeleteExpired_shrinks c clock :
  Map (DeleteExpired c clock) ⊆ Map c ∧
  (size (Map (DeleteExpired c clock)) ≤ size (Map c))%nat ∧
  (∀ k item, Map (DeleteExpired c clock) !! k = Some item →
     Map c !! k = Some item ∧ Expired item (clock k) = false).
Proof.
  assert (Hleft : ∀ k item, Map (DeleteExpired c clock) !! k = Some item →
            Map c !! k = Some item ∧ Expired item (clock k) = false).
  { intros k item. rewrite sweep_lookup.
    destruct (Map c !! k) as [item'|]; [|done].
    destruct (Expired item' (clock k)) eqn:He; [done|].
    by intros [= <-]. }
  assert (Hsub : Map (DeleteExpired c clock) ⊆ Map c).
  { apply map_subseteq_spec. intros k item Hk. by apply Hleft. }
  split; [done|]. split; [by apply map_subseteq_size|done].
Qed.

(** X12.  A second sweep that takes the same clock readings removes nothing
    more. *)
Theorem DeleteExpired_idempotent c clock :
  DeleteExpired (DeleteExpired c clock) clock = DeleteExpired c clock.
Proof.
  symmetry. apply sweep_eq; [done|done|].
  intros k. rewrite (sweep_lookup (DeleteExpired c clock)).
  rewrite (sweep_lookup c).
  destruct (Map c !! k) as [item|]; [|done].
  destruct (Expired item (clock k)) eqn:He; [done|]. by rewrite He.
Qed.

(** X13.  A sweep that meets no expired entry gives back the cache it was
    given. *)
Theorem DeleteExpired_nothing_expired c clock :
  (∀ k item, Map c !! k = Some item → Expired item (clock k) = false) →
  DeleteExpired c clock = c.
Proof.
  intros Hlive. symmetry. apply sweep_eq; [done|done|].
  intros k. rewrite sweep_lookup.
  destruct (Map c !! k) as [item|] eqn:Hk; [|done].
  by rewrite (Hlive k item Hk).
Qed.

(** X14.  A sweep is invisible through [Load]: at the instant [now], [Load(k)]
    answers the same whether or not a sweep ran at [now] just before,
    and after the sweep it has nothing left to delete. *)
Theorem Load_after_DeleteExpired c k now :
  Load (DeleteExpired c (λ _, now)) k now
  = (fst (Load c k now), DeleteExpired c (λ _, now)).
Proof.
  unfold Load. rewrite sweep_lookup.
  destruct (Map c !! k) as [item|]; [|done].
  unfold Expired. destruct (Persistent item) eqn:Hp; simpl.
  { by rewrite Hp. }
  destruct (time.After now (Expiration item)) eqn:He; [done|].
  by rewrite Hp, He.
Qed.

(** X15.  The lazy expiration of [Load] only anticipates the sweep: sweeping
    at [now] after a [Load] at [now] gives the cache that sweeping alone
    gives. *)
Theorem DeleteExpired_after_Load c k now :
  DeleteExpired (snd (Load c k now)) (λ _, now)
  = DeleteExpired c (λ _, now).
Proof.
  symmetry. apply sweep_eq.
  - destruct (sweep_fields (λ _, now) (map_to_list (Map c)) c) as [Hd _].
    unfold DeleteExpired, syncRange. rewrite Hd. symmetry. apply Load_fields.
  - destruct (sweep_fields (λ _, now) (map_to_list (Map c)) c) as [_ Hs].
    unfold DeleteExpired, syncRange. rewrite Hs. symmetry. apply Load_fields.
  - intros k'. rewrite !sweep_lookup. unfold Load.
    destruct (Map c !! k) as [item|] eqn:Hk; [|done].
    destruct (negb (Persistent item) && time.After now (Expiration item))
      eqn:He; [|done].
    simpl. destruct (decide (k = k')) as [<-|Hne].
    + rewrite lookup_delete_eq, Hk. unfold Expired.
      apply andb_true_iff in He as [Hp Ha].
      apply negb_true_iff in Hp. by rewrite Hp, Ha.
    + by rewrite lookup_delete_ne.
Qed.

(** X16.  A persistent entry is still returned by [Load] after any sweep. *)
Theorem Load_persistent_after_sweep c k x d now clock now' :
  fst (Load (DeleteExpired (Store c k x d true now) clock) k now')
  = (x, true).
Proof.
  unfold Load. rewrite sweep_lookup, Store_lookup. by simpl.
Qed.

End SweepCompose.

Lemma DeleteExpired_nothing_expired_witness :
  let c := Store (Store (newCache 5 ∅)
                    "p" (Some 1%nat) NoExpiration true (time.reading 0 0))
                    "f" (Some 3%nat) 30 false (time.reading 0 0) in
  DeleteExpired c (λ _, time.reading 9 9) = c.
Proof.
  intros c. apply DeleteExpired_nothing_expired.
  intros k item Hk.
  destruct (decide (k = "f")) as [->|Hf].
  - vm_compute in Hk. injection Hk as <-. reflexivity.
  - destruct (decide (k = "p")) as [->|Hp].
    + vm_compute in Hk. injection Hk as <-. reflexivity.
    + unfold c in Hk. rewrite Store_lookup_ne in Hk by done.
      rewrite Store_lookup_ne in Hk by done. done.
Defined.

(** ** A fresh cache, and walks that count *)

Section Fresh.

Context {V : Type}.
Implicit Types (c : Cache V) (item : Item V) (k : string) (x : option V).

(** X17.  The cache [New] returns holds nothing: every [Load] reports not
    found, [Range] returns without calling its visitor, and [Delete] and
    [DeleteExpired] give the cache back unchanged. *)
Theorem New_is_empty de ci :
  let c := Sched.cache (@Sched.New V de ci) in
  Map c = ∅ ∧
  (∀ k now, Load c k now = ((None, false), c)) ∧
  (∀ (St : Type) (f : string → Item V → St → bool * St) s, Range c f s = s) ∧
  (∀ k, Delete c k = c) ∧
  (∀ clock, DeleteExpired c clock = c).
Proof.
  intros c.
  assert (Hc : c = newCache de ∅).
  { unfold c, Sched.New. by destruct (0 <? de). }
  rewrite Hc. split; [done|]. split; [done|]. split.
  { intros St f s. unfold Range, syncRange. simpl.
    by rewrite map_to_list_empty. }
  split.
  { intros k. unfold Delete. simpl. by rewrite delete_empty. }
  intros clock. unfold DeleteExpired, syncRange. simpl.
  by rewrite map_to_list_empty.
Qed.

Lemma rangeOver_count (l : list (string * Item V)) (n : nat) :
  rangeOver (λ _ _ n, (true, S n)) l n = (n + length l)%nat.
Proof.
  revert n. induction l as [|[k item] l IH]; intros n; simpl.
  - lia.
  - rewrite IH. lia.
Qed.

(** X18.  A [Range] whose visitor counts its calls and always asks to go on
    returns the number of entries of the cache. *)
Theorem Range_counts_entries c :
  Range c (λ _ _ n, (true, S n)) 0%nat = size (Map c).
Proof.
  unfold Range, syncRange. rewrite rangeOver_count.
  by rewrite length_map_to_list.
Qed.

(** X10.  A [Store] under one key does not change what [Load] answers for
    another. *)
Theorem Load_other_key_after_Store c k k' x d persitent now now' :
  k ≠ k' →
  fst (Load (Store c k x d persitent now) k' now') = fst (Load c k' now').
Proof.
  intros Hne. unfold Load. rewrite Store_lookup_ne by done.
  destruct (Map c !! k') as [item|]; [|done].
  by destruct (negb (Persistent item) && time.After now' (Expiration item)).
Qed.

End Fresh.

Lemma Load_other_key_after_Store_witness :
  fst (Load (Store (newCache 5 ∅) "a" (Some 1%nat) 0 false (time.reading 0 0))
         "b" (time.reading 1 1))
  = fst (Load (newCache 5 ∅) "b" (time.reading 1 1)).
Proof. apply (Load_other_key_after_Store (newCache 5 ∅)). discriminate. Defined.

(** ** The background sweep when it works *)

Section BackgroundRuns.

Context {V : Type}.
Implicit Types (w : Sched.World V) (e : Sched.Event V).
Implicit Types (evs : list (Sched.Event V)).

Lemma idle_step w e w' :
  Sched.janitor w = Sched.gcAbsent → Sched.finalizer w = Sched.finAbsent →
  Sched.step w e = Some w' →
  Sched.janitor w' = Sched.gcAbsent ∧ Sched.finalizer w' = Sched.finAbsent.
Proof.
  intros Hj Hf Hstep. unfold Sched.step in Hstep.
  rewrite Hj, ?Hf in Hstep.
  destruct e; simpl in Hstep; try discriminate;
    injection Hstep as <-; by simpl.
Qed.

Lemma idle_run evs w w' :
  Sched.janitor w = Sched.gcAbsent → Sched.finalizer w = Sched.finAbsent →
  Sched.run w evs = Some w' →
  Sched.janitor w' = Sched.gcAbsent ∧ Sched.finalizer w' = Sched.finAbsent.
Proof.
  revert w. induction evs as [|e evs IH]; intros w Hj Hf Hrun; simpl in Hrun.
  - by injection Hrun as <-.
  - destruct (Sched.step w e) as [w1|] eqn:Hstep; [|done].
    destruct (idle_step w e w1 Hj Hf Hstep) as [Hj1 Hf1].
    by apply (IH w1).
Qed.

(** X19.  With a default expiration that is not positive, [New] starts no
    sweep task and registers no finalizer, and none ever appears: in
    every state the program reaches no tick can fire, so entries leave
    the cache only through [Load], [Delete] and [DeleteExpired]. *)
Theorem New_without_positive_default de ci evs w :
  de ≤ 0 →
  Sched.run (@Sched.New V de ci) evs = Some w →
  Sched.janitor w = Sched.gcAbsent ∧
  Sched.finalizer w = Sched.finAbsent ∧
  Sched.step w Sched.evBegin = None ∧
  (∀ clock, Sched.step w (Sched.evTick clock) = None) ∧
  Sched.step w Sched.evFinalize = None.
Proof.
  intros Hde Hrun.
  assert (Hnew : @Sched.New V de ci
                 = Sched.mkWorld (newCache de ∅) Sched.gcAbsent Sched.finAbsent).
  { unfold Sched.New. destruct (Z.ltb_spec 0 de); [lia|done]. }
  rewrite Hnew in Hrun.
  destruct (idle_run evs
              (Sched.mkWorld (newCache de ∅) Sched.gcAbsent Sched.finAbsent)
              w eq_refl eq_refl Hrun) as [Hj Hf].
  unfold Sched.step. rewrite Hj, Hf. by repeat split.
Qed.




(** X21.  The sweep task reclaims on its own: on a cache made with a positive
    default [de] and a positive interval, an entry stored with
    [DefaultExpiration] at monotonic reading [m] is gone after the first
    tick whose reading for that key is past [m + de], without any [Load]
    of the key; the task is still waiting for its next tick. *)
Theorem tick_removes_expired_default_entry de ci k x ns m clock ns' m' :
  0 < de → 0 < ci →
  clock k = time.reading ns' m' →
  m + de < m' →
  Sched.run (@Sched.New V de ci)
    [Sched.evBegin;
     Sched.evStore k x DefaultExpiration false (time.reading ns m);
     Sched.evTick clock]
  = Some (Sched.mkWorld (newCache de ∅)
            (Sched.gcSelect (time.mkTicker ci true)) Sched.finSet).
Proof.
  intros Hde Hci Hclock Hm. rewrite (New_positive de ci Hde).
  simpl. unfold Sched.step. simpl.
  unfold Sched.gcBegin, time.NewTicker.
  destruct (Z.leb_spec ci 0); [lia|]. simpl.
  unfold Sched.withCache. simpl. do 2 f_equal.
  symmetry. apply sweep_eq; [done|done|].
  assert (Hres : resolve (newCache (V:=V) de ∅) DefaultExpiration = de).
  { unfold resolve, newCache. simpl. destruct (Z.eqb_spec de 0); [lia|done]. }
  intros k'. rewrite sweep_lookup. destruct (decide (k = k')) as [<-|Hne].
  - rewrite Store_lookup, Hres.
    destruct (Z.ltb_spec 0 de); [|lia].
    rewrite Expired_deadline by done. simpl. rewrite Hclock.
    unfold time.After. simpl.
    destruct (Z.ltb_spec (m + de) m'); [done|lia].
  - rewrite Store_lookup_ne by done. done.
Qed.

End BackgroundRuns.

Lemma New_without_positive_default_witness :
  let evs := [Sched.evStore "a" (Some 7%nat) 60 false (time.reading 0 0);
              Sched.evLoad "a" (time.reading 5 5)] in
  let w := Sched.mkWorld
             (Store (newCache (-1) ∅) "a" (Some 7%nat) 60 false
                (time.reading 0 0))
             Sched.gcAbsent Sched.finAbsent in
  Sched.run (@Sched.New nat (-1) 10) evs = Some w ∧
  ∀ clock, Sched.step w (Sched.evTick clock) = None.
Proof.
  intros evs w.
  assert (Hrun : Sched.run (@Sched.New nat (-1) 10) evs = Some w)
    by (vm_compute; reflexivity).
  split; [exact Hrun|].
  assert (Hde : -1 ≤ 0) by (vm_compute; discriminate).
  exact (proj1 (proj2 (proj2 (proj2
           (New_without_positive_default (-1) 10 evs w Hde Hrun))))).
Defined.


Lemma tick_removes_expired_default_entry_witness :
  Sched.run (@Sched.New nat 50 10)
    [Sched.evBegin;
     Sched.evStore "a" (Some 1%nat) DefaultExpiration false (time.reading 0 0);
     Sched.evTick (λ _, time.reading 80 80)]
  = Some (Sched.mkWorld (newCache 50 ∅)
            (Sched.gcSelect (time.mkTicker 10 true)) Sched.finSet).
Proof.
  apply (tick_removes_expired_default_entry (V:=nat) 50 10 "a" (Some 1%nat)
           0 0 (λ _, time.reading 80 80) 80 80); reflexivity.
Defined.
